(** * Reference counting and compare-and-swap primitives of libstrongswan

    Shallow embedding of the atomic primitives that
    [src/libstrongswan/utils/utils.h] defines as macros over the GCC
    built-ins ([ref_get], [ref_put], [ref_cur], [_cas_impl], [cas_bool],
    [cas_ptr]), in both of the header's built-in based variants: the
    [__atomic_*] one (GCC 4.7 and newer) and the [__sync_*] one.

    The embedding is sequential: one call is one indivisible step on a
    memory, which is what atomicity gives at the level of values.  The
    memory-order arguments of the built-ins are carried through the
    definitions as the macros pass them, but have no effect on values.
    The header's [pad_len], [round_up], [round_down], [max], [min] and
    [VA_ARGS_NUM] are embedded as well. *)

From Stdlib Require Import ZArith Lia.
From stdpp Require Import gmap list.
From stdpp Require Import strings pretty.

Local Open Scope Z_scope.

(** ** Memory *)

(** Addresses are integers.  A cell holds one scalar object of one of the
    three types the header's primitives are used at. *)
Inductive val :=
| VUInt (n : Z)      (* a [refcount_t], that is a [u_int] *)
| VBool (b : bool)   (* a [bool] *)
| VPtr (p : Z).      (* a [void*], as the address it holds *)

Inductive ctype := TUInt | TBool | TPtr.

Definition type_of (v : val) : ctype :=
  match v with
  | VUInt _ => TUInt
  | VBool _ => TBool
  | VPtr _ => TPtr
  end.

#[global] Instance val_eq_dec : EqDecision val.
Proof. solve_decision. Defined.

#[global] Instance ctype_eq_dec : EqDecision ctype.
Proof. solve_decision. Defined.

(** [typedef u_int refcount_t;] *)
Abbreviation refcount_t := Z (only parsing).

(** ** Computations on the memory

    A call either goes wrong (the pointer does not designate an object of
    the right type: undefined behaviour in C) or returns a value and the
    memory it leaves. *)
Definition M (A : Type) : Type := gmap Z val -> option (A * gmap Z val).

Definition ret {A : Type} (a : A) : M A := fun m => Some (a, m).

Definition bind {A B : Type} (c : M A) (k : A -> M B) : M B :=
  fun m =>
    match c m with
    | Some (a, m') => k a m'
    | None => None
    end.

Notation "x <- c ;; k" := (bind c (fun x => k))
  (at level 100, c at next level, right associativity).

(** ** The GCC built-ins

    The built-ins are the compiler's, not the repository's; they are
    modelled after their documented meaning.  The width [w] of [u_int] in
    bits is that of the platform's [unsigned int]. *)

Inductive memorder :=
| __ATOMIC_RELAXED
| __ATOMIC_CONSUME
| __ATOMIC_ACQUIRE
| __ATOMIC_RELEASE
| __ATOMIC_ACQ_REL
| __ATOMIC_SEQ_CST.

(** Unsigned arithmetic on [w] bits: results are reduced modulo [2^w]. *)
Definition to_u_int (w : Z) (x : Z) : Z := x mod 2 ^ w.

Definition UINT_MAX (w : Z) : Z := 2 ^ w - 1.

(** [__atomic_add_fetch(ptr, v, memorder)]: [*ptr += v], returns the new
    value. *)
Definition __atomic_add_fetch (w : Z) (ptr : Z) (v : Z) (mo : memorder)
  : M refcount_t :=
  fun m =>
    match m !! ptr with
    | Some (VUInt c) =>
        let r := to_u_int w (c + v) in Some (r, <[ptr := VUInt r]> m)
    | _ => None
    end.

(** [__atomic_sub_fetch(ptr, v, memorder)]: [*ptr -= v], returns the new
    value. *)
Definition __atomic_sub_fetch (w : Z) (ptr : Z) (v : Z) (mo : memorder)
  : M refcount_t :=
  fun m =>
    match m !! ptr with
    | Some (VUInt c) =>
        let r := to_u_int w (c - v) in Some (r, <[ptr := VUInt r]> m)
    | _ => None
    end.

(** [__atomic_load_n(ptr, memorder)]: returns [*ptr]. *)
Definition __atomic_load_n (ptr : Z) (mo : memorder) : M refcount_t :=
  fun m =>
    match m !! ptr with
    | Some (VUInt c) => Some (c, m)
    | _ => None
    end.

(** *** Objects as the platform lays them out

    The compare-and-swap built-ins are generic: the type of [*ptr] decides
    how many bytes are compared and to which type the values passed are
    converted, whatever the types of the other arguments.  What the
    header leaves to the platform is gathered here: the widths of [u_int]
    and of pointers and the byte order.  A [bool] is one byte, holding 0
    or 1. *)
Record platform := Platform {
  uint_bits : Z;
  ptr_bits : Z;
  big_endian : bool
}.

Definition bits_of (P : platform) (T : ctype) : Z :=
  match T with
  | TUInt => uint_bits P
  | TBool => 8
  | TPtr => ptr_bits P
  end.

(** The number an object holds. *)
Definition num_of (v : val) : Z :=
  match v with
  | VUInt n => n
  | VBool b => if b then 1 else 0
  | VPtr p => p
  end.

(** The object of type [T] whose bytes hold the number [x]. *)
Definition of_num (T : ctype) (x : Z) : val :=
  match T with
  | TUInt => VUInt x
  | TBool => VBool (negb (x =? 0))
  | TPtr => VPtr x
  end.

(** Conversion of a scalar to the type [T], as by a cast: to [bool] it is
    the comparison with 0, to [u_int] and to a pointer the reduction to
    the width of the type. *)
Definition convert (P : platform) (T : ctype) (v : val) : val :=
  if decide (type_of v = T) then v
  else
    match T with
    | TBool => VBool (negb (num_of v =? 0))
    | TUInt => VUInt (num_of v mod 2 ^ uint_bits P)
    | TPtr => VPtr (num_of v mod 2 ^ ptr_bits P)
    end.

(** The number held by the first [sizeof(T)] bytes of the object [v]: its
    low-order part on a little-endian platform, its high-order part on a
    big-endian one.  There is none when [v] is smaller than a [T]: reading
    that many bytes runs past the object. *)
Definition leading (P : platform) (T : ctype) (v : val) : option Z :=
  let U := type_of v in
  if bits_of P T <=? bits_of P U then
    Some (if big_endian P
          then (num_of v mod 2 ^ bits_of P U)
               / 2 ^ (bits_of P U - bits_of P T)
          else num_of v mod 2 ^ bits_of P T)
  else None.

(** Whether the bytes of [cur] are the first bytes of [expected].  Objects
    of one type have the same bytes exactly when they are equal. *)
Definition same_bytes (P : platform) (cur expected : val) : option bool :=
  if decide (type_of expected = type_of cur)
  then Some (bool_decide (cur = expected))
  else
    match leading P (type_of cur) expected with
    | Some x => Some (x =? num_of cur)
    | None => None
    end.

(** The object [expected] after the bytes of [cur] were copied over its
    first bytes. *)
Definition splice (P : platform) (cur expected : val) : val :=
  if decide (type_of expected = type_of cur) then cur
  else
    let bT := bits_of P (type_of cur) in
    let bU := bits_of P (type_of expected) in
    let x := num_of expected mod 2 ^ bU in
    of_num (type_of expected)
      (if big_endian P
       then num_of cur * 2 ^ (bU - bT) + x mod 2 ^ (bU - bT)
       else x / 2 ^ bT * 2 ^ bT + num_of cur).

(** [__atomic_compare_exchange_n(ptr, expected, desired, weak, success,
    failure)]: compares the [sizeof *ptr] bytes of [*ptr] with those at
    [expected]; if they are equal, writes [desired], converted to the type
    of [*ptr], into [*ptr] and returns true; otherwise copies the bytes of
    [*ptr] to [expected] and returns false.  [expected] is passed here by
    value and its final content is returned next to the result; it goes
    wrong when it is smaller than [*ptr].  The header only uses the strong
    form ([weak] is [FALSE]), which never fails spuriously; that form is
    the one modelled. *)
Definition __atomic_compare_exchange_n (P : platform) (ptr : Z)
    (expected desired : val) (weak : bool)
    (success_memorder failure_memorder : memorder)
  : M (bool * val) :=
  fun m =>
    match m !! ptr with
    | Some cur =>
        match same_bytes P cur expected with
        | Some true =>
            Some ((true, expected),
                  <[ptr := convert P (type_of cur) desired]> m)
        | Some false => Some ((false, splice P cur expected), m)
        | None => None
        end
    | None => None
    end.

(** [__sync_add_and_fetch(ptr, v)]: [*ptr += v], returns the new value. *)
Definition __sync_add_and_fetch (w : Z) (ptr : Z) (v : Z) : M refcount_t :=
  fun m =>
    match m !! ptr with
    | Some (VUInt c) =>
        let r := to_u_int w (c + v) in Some (r, <[ptr := VUInt r]> m)
    | _ => None
    end.

(** [__sync_sub_and_fetch(ptr, v)]: [*ptr -= v], returns the new value. *)
Definition __sync_sub_and_fetch (w : Z) (ptr : Z) (v : Z) : M refcount_t :=
  fun m =>
    match m !! ptr with
    | Some (VUInt c) =>
        let r := to_u_int w (c - v) in Some (r, <[ptr := VUInt r]> m)
    | _ => None
    end.

(** [__sync_fetch_and_add(ptr, v)]: [*ptr += v], returns the value [*ptr]
    had before. *)
Definition __sync_fetch_and_add (w : Z) (ptr : Z) (v : Z) : M refcount_t :=
  fun m =>
    match m !! ptr with
    | Some (VUInt c) => Some (c, <[ptr := VUInt (to_u_int w (c + v))]> m)
    | _ => None
    end.

(** [__sync_bool_compare_and_swap(ptr, oldval, newval)]: [oldval] and
    [newval] are converted to the type of [*ptr]; if [*ptr] equals
    [oldval], writes [newval] into [*ptr]; returns whether it did. *)
Definition __sync_bool_compare_and_swap (P : platform) (ptr : Z)
    (oldval newval : val) : M bool :=
  fun m =>
    match m !! ptr with
    | Some cur =>
        if decide (cur = convert P (type_of cur) oldval)
        then Some (true, <[ptr := convert P (type_of cur) newval]> m)
        else Some (false, m)
    | None => None
    end.

(** ** The header's macros, [HAVE_GCC_ATOMIC_OPERATIONS] variant *)
Module Atomic.

(** [#define ref_get(ref) __atomic_add_fetch(ref, 1, __ATOMIC_RELAXED)] *)
Definition ref_get (w : Z) (ref : Z) : M refcount_t :=
  __atomic_add_fetch w ref 1 __ATOMIC_RELAXED.

(** [#define ref_put(ref) (!__atomic_sub_fetch(ref, 1, __ATOMIC_ACQ_REL))] *)
Definition ref_put (w : Z) (ref : Z) : M bool :=
  r <- __atomic_sub_fetch w ref 1 __ATOMIC_ACQ_REL ;;
  ret (r =? 0).

(** [#define ref_cur(ref) __atomic_load_n(ref, __ATOMIC_RELAXED)] *)
Definition ref_cur (ref : Z) : M refcount_t :=
  __atomic_load_n ref __ATOMIC_RELAXED.

(** [#define _cas_impl(ptr, oldval, newval) ({ typeof(oldval) _old = oldval;
    __atomic_compare_exchange_n(ptr, &_old, newval, FALSE,
    __ATOMIC_SEQ_CST, __ATOMIC_RELAXED); })]: the local [_old] receives
    what the built-in writes back and is dropped. *)
Definition _cas_impl (P : platform) (ptr : Z) (oldval newval : val)
  : M bool :=
  r <- __atomic_compare_exchange_n P ptr oldval newval false
         __ATOMIC_SEQ_CST __ATOMIC_RELAXED ;;
  let '(ok, _old) := r in
  ret ok.

(** [#define cas_bool(ptr, oldval, newval) _cas_impl(ptr, oldval, newval)] *)
Definition cas_bool (P : platform) (ptr : Z) (oldval newval : bool)
  : M bool :=
  _cas_impl P ptr (VBool oldval) (VBool newval).

(** [#define cas_ptr(ptr, oldval, newval) _cas_impl(ptr, oldval, newval)] *)
Definition cas_ptr (P : platform) (ptr : Z) (oldval newval : Z)
  : M bool :=
  _cas_impl P ptr (VPtr oldval) (VPtr newval).

End Atomic.

(** ** The header's macros, [HAVE_GCC_SYNC_OPERATIONS] variant *)
Module Sync.

(** [#define ref_get(ref) __sync_add_and_fetch(ref, 1)] *)
Definition ref_get (w : Z) (ref : Z) : M refcount_t :=
  __sync_add_and_fetch w ref 1.

(** [#define ref_put(ref) (!__sync_sub_and_fetch(ref, 1))] *)
Definition ref_put (w : Z) (ref : Z) : M bool :=
  r <- __sync_sub_and_fetch w ref 1 ;;
  ret (r =? 0).

(** [#define ref_cur(ref) __sync_fetch_and_add(ref, 0)] *)
Definition ref_cur (w : Z) (ref : Z) : M refcount_t :=
  __sync_fetch_and_add w ref 0.

(** [#define cas_bool(ptr, oldval, newval)
    (__sync_bool_compare_and_swap(ptr, oldval, newval))] *)
Definition cas_bool (P : platform) (ptr : Z) (oldval newval : bool)
  : M bool :=
  __sync_bool_compare_and_swap P ptr (VBool oldval) (VBool newval).

(** [#define cas_ptr(ptr, oldval, newval)
    (__sync_bool_compare_and_swap(ptr, oldval, newval))] *)
Definition cas_ptr (P : platform) (ptr : Z) (oldval newval : Z)
  : M bool :=
  __sync_bool_compare_and_swap P ptr (VPtr oldval) (VPtr newval).

End Sync.

(** A memory is well typed when every counter it holds is a [u_int]. *)
Definition wf_val (w : Z) (v : val) : Prop :=
  match v with
  | VUInt c => 0 <= c < 2 ^ w
  | _ => True
  end.

Definition wf_mem (w : Z) (m : gmap Z val) : Prop :=
  map_Forall (fun _ v => wf_val w v) m.

(** A memory with one counter, at address 16. *)
Definition one_counter (c : Z) : gmap Z val := {[ 16 := VUInt c ]}.

(** A little-endian platform with 32-bit [u_int] and 64-bit pointers. *)
Definition lp64 : platform := Platform 32 64 false.

(** A memory with a counter, a flag and a pointer slot. *)
Definition sample_mem : gmap Z val :=
  <[ 16 := VUInt 1 ]> (<[ 24 := VBool false ]> (<[ 32 := VPtr 0 ]> ∅)).

(** ** Single-threaded traces of calls on one counter *)

Inductive call := Get | Put | Cur.

(** What a call returns: a count ([ref_get], [ref_cur]) or whether the
    reference given back was the last one ([ref_put]). *)
Inductive retval := RCount (n : Z) | RLast (b : bool).

(** One step of a trace: the call, what it returned and the value the
    counter holds after it. *)
Record event := Event { ev_call : call; ev_ret : retval; ev_after : Z }.

(** Modelled from the spec: the constructor of a reference-counted object,
    which is not part of this header, sets the object's counter to 1. *)
Definition new_counter : refcount_t := 1.

(** The content of the counter, looked at from outside the program. *)
Definition peek (ref : Z) : M Z :=
  fun m =>
    match m !! ref with
    | Some (VUInt c) => Some (c, m)
    | _ => None
    end.

Definition do_call (w ref : Z) (c : call) : M retval :=
  match c with
  | Get => n <- Atomic.ref_get w ref ;; ret (RCount n)
  | Put => b <- Atomic.ref_put w ref ;; ret (RLast b)
  | Cur => n <- Atomic.ref_cur ref ;; ret (RCount n)
  end.

Fixpoint exec (w ref : Z) (t : list call) : M (list event) :=
  match t with
  | [] => ret []
  | c :: t' =>
      r <- do_call w ref c ;;
      v <- peek ref ;;
      evs <- exec w ref t' ;;
      ret (Event c r v :: evs)
  end.

(** Number of [ref_get] calls and of [ref_put] calls in a trace. *)
Fixpoint gets (t : list call) : Z :=
  match t with
  | [] => 0
  | Get :: t' => 1 + gets t'
  | _ :: t' => gets t'
  end.

Fixpoint puts (t : list call) : Z :=
  match t with
  | [] => 0
  | Put :: t' => 1 + puts t'
  | _ :: t' => puts t'
  end.

(** The [ref_put] told its caller to destroy the object. *)
Definition is_last (e : event) : bool :=
  match ev_ret e with
  | RLast b => b
  | RCount _ => false
  end.

(** The call left the counter at 0. *)
Definition at_zero (e : event) : bool := ev_after e =? 0.

Fixpoint count_if (p : event -> bool) (evs : list event) : nat :=
  match evs with
  | [] => 0%nat
  | e :: evs' => ((if p e then 1 else 0) + count_if p evs')%nat
  end.

(** Exactly one [ref_put] returned true, it is a call that brought the
    counter to 0, and the counter was brought to 0 exactly once. *)
Definition released_once (evs : list event) : Prop :=
  count_if is_last evs = 1%nat
  /\ Forall (fun e => is_last e = true ->
                      ev_call e = Put /\ ev_after e = 0) evs
  /\ count_if at_zero evs = 1%nat.

(** Every [ref_put] of the trace is preceded by at least as many holders
    (the creator and the [g] callers of [ref_get] so far) as there are
    [ref_put] calls up to and including it ([p] before it). *)
Fixpoint puts_covered (g p : Z) (t : list call) : bool :=
  match t with
  | [] => true
  | Get :: t' => puts_covered (g + 1) p t'
  | Put :: t' => (p + 1 <=? 1 + g) && puts_covered g (p + 1) t'
  | Cur :: t' => puts_covered g p t'
  end.

(** Every call of the trace, whichever it is, is made while a reference
    is held: the holders so far outnumber the [ref_put] calls so far. *)
Fixpoint calls_held (g p : Z) (t : list call) : bool :=
  match t with
  | [] => true
  | c :: t' =>
      (p <? 1 + g)
      && match c with
         | Get => calls_held (g + 1) p t'
         | Put => calls_held g (p + 1) t'
         | Cur => calls_held g p t'
         end
  end.

(** ** A trace seen from the counter alone

    What one call does to the content [c] of the counter and what it
    returns, read off the macros; [exec_sim] below shows that [exec] on a
    memory does exactly this to the cell of the counter. *)
Definition next (w c : Z) (x : call) : Z :=
  match x with
  | Get => to_u_int w (c + 1)
  | Put => to_u_int w (c - 1)
  | Cur => c
  end.

Definition result (w c : Z) (x : call) : retval :=
  match x with
  | Get => RCount (to_u_int w (c + 1))
  | Put => RLast (to_u_int w (c - 1) =? 0)
  | Cur => RCount c
  end.

Fixpoint sim (w c : Z) (t : list call) : list event * Z :=
  match t with
  | [] => ([], c)
  | x :: t' =>
      let c' := next w c x in
      let '(evs, cf) := sim w c' t' in
      (Event x (result w c x) c' :: evs, cf)
  end.

(** What a call adds to the number of references held. *)
Definition delta (x : call) : Z :=
  match x with
  | Get => 1
  | Put => -1
  | Cur => 0
  end.

(** An event is consistent with a counter that was at least 1 before the
    call: only a [ref_put] can report the last reference, and a call
    reports it exactly when it leaves the counter at 0. *)
Definition ev_ok (e : event) : Prop :=
  is_last e = at_zero e /\ (is_last e = true -> ev_call e = Put).

(** The references accounted for after call number [i] of the trace [t]
    (counted from 0): [base] plus the [ref_get] calls minus the [ref_put]
    calls made so far. *)
Definition held_at (base : Z) (t : list call) (i : nat) : Z :=
  base + (gets (take (S i) t) - puts (take (S i) t)).

(** After every call the counter holds [held_at base]. *)
Definition tracks (base : Z) (t : list call) (evs : list event) : Prop :=
  forall (i : nat) (e : event),
    evs !! i = Some e -> ev_after e = held_at base t i.

(** ** Rounding to a multiple of an alignment

    [size_t] is an unsigned integer of [s] bits.  [size % alignment] with
    [alignment] 0 is undefined in C and the functions do not guard against
    it: the call goes wrong, [None]. *)

Definition to_size_t (s : Z) (x : Z) : Z := x mod 2 ^ s.

(** [static inline size_t pad_len(size_t size, size_t alignment)]:
    [remainder = size % alignment;
     return remainder ? alignment - remainder : 0;] *)
Definition pad_len (s : Z) (size alignment : Z) : option Z :=
  if alignment =? 0 then None
  else
    let remainder := size mod alignment in
    Some (if negb (remainder =? 0)
          then to_size_t s (alignment - remainder)
          else 0).

(** [static inline size_t round_up(size_t size, size_t alignment)]:
    [return size + pad_len(size, alignment);] *)
Definition round_up (s : Z) (size alignment : Z) : option Z :=
  match pad_len s size alignment with
  | Some p => Some (to_size_t s (size + p))
  | None => None
  end.

(** [static inline size_t round_down(size_t size, size_t alignment)]:
    [return size - (size % alignment);] *)
Definition round_down (s : Z) (size alignment : Z) : option Z :=
  if alignment =? 0 then None
  else Some (to_size_t s (size - size mod alignment)).

(** ** Statement-expression and variadic macros *)
Module Macros.

(** [#define max(x,y) ({ typeof(x) _x = (x); typeof(y) _y = (y);
    _x > _y ? _x : _y; })], at operands of one integer type.  The
    operands are expressions, which may have effects: [x] is evaluated
    into [_x], then [y] into [_y]. *)
Definition max (x y : M Z) : M Z :=
  _x <- x ;;
  _y <- y ;;
  ret (if _x >? _y then _x else _y).

(** [#define min(x,y) ({ typeof(x) _x = (x); typeof(y) _y = (y);
    _x < _y ? _x : _y; })] *)
Definition min (x y : M Z) : M Z :=
  _x <- x ;;
  _y <- y ;;
  ret (if _x <? _y then _x else _y).

(** [#define _VA_ARGS_NUM(_0,_1,_2,_3,_4,_5,_6,_7,_8,_9,_10,NUM,...) NUM]:
    the twelfth argument.  Macro arguments are token strings. *)
Definition _VA_ARGS_NUM (l : list string) : option string := l !! 11%nat.

(** [#define VA_ARGS_NUM(...)
    _VA_ARGS_NUM(0,##__VA_ARGS__,10,9,8,7,6,5,4,3,2,1,0)] *)
Definition VA_ARGS_NUM (args : list string) : option string :=
  _VA_ARGS_NUM
    ("0" :: args
     ++ ["10"; "9"; "8"; "7"; "6"; "5"; "4"; "3"; "2"; "1"; "0"])%string.

End Macros.

(** ** Competing compare-and-swap calls

    Several callers try to move one location away from the same expected
    value, each to a value of its own; the calls take effect one after
    the other. *)
Fixpoint cas_each (P : platform) (ptr : Z) (oldval : val)
    (newvals : list val) : M (list bool) :=
  match newvals with
  | [] => ret []
  | n :: ns =>
      ok <- Atomic._cas_impl P ptr oldval n ;;
      oks <- cas_each P ptr oldval ns ;;
      ret (ok :: oks)
  end.

(** The type of the object at each address. *)
Definition shape (m : gmap Z val) : gmap Z ctype := type_of <$> m.

(** * Properties of single calls *)

Lemma u_int_range (w x : Z) : 0 <= w -> 0 <= to_u_int w x < 2 ^ w.
Proof. intros Hw. unfold to_u_int. apply Z.mod_pos_bound. lia. Qed.

Lemma u_int_small (w x : Z) : 0 <= x < 2 ^ w -> to_u_int w x = x.
Proof. intros H. unfold to_u_int. by apply Z.mod_small. Qed.

Lemma pow2_ge_16 (w : Z) : 16 <= w -> 65536 <= 2 ^ w.
Proof.
  intros Hw. change 65536 with (2 ^ 16). apply Z.pow_le_mono_r; lia.
Qed.

(** C1. [ref_put] on a counter holding [c] stores [c - 1] (in [u_int]
    arithmetic, which is plain [c - 1] unless [c] is 0), returns true
    exactly when the stored value is 0, leaves every other cell as it was
    and always returns; this holds in both variants of the macro. *)
Theorem ref_put_spec (w ref c : Z) (m : gmap Z val) :
  m !! ref = Some (VUInt c) ->
  0 <= c < 2 ^ w ->
  exists (freed : bool) (m' : gmap Z val),
    Atomic.ref_put w ref m = Some (freed, m')
    /\ Sync.ref_put w ref m = Some (freed, m')
    /\ m' = <[ref := VUInt (to_u_int w (c - 1))]> m
    /\ (0 < c -> m' !! ref = Some (VUInt (c - 1)))
    /\ (forall l, l <> ref -> m' !! l = m !! l)
    /\ (freed = true <-> m' !! ref = Some (VUInt 0)).
Proof.
  intros Hc Hr.
  exists (to_u_int w (c - 1) =? 0), (<[ref := VUInt (to_u_int w (c - 1))]> m).
  unfold Atomic.ref_put, Sync.ref_put, bind, ret,
    __atomic_sub_fetch, __sync_sub_and_fetch.
  rewrite Hc. repeat split.
  - intros Hpos. rewrite lookup_insert_eq, u_int_small by lia. done.
  - intros l Hl. by rewrite lookup_insert_ne.
  - rewrite lookup_insert_eq. intros H%Z.eqb_eq. by rewrite H.
  - rewrite lookup_insert_eq. intros [= H]. by apply Z.eqb_eq.
Qed.

Lemma ref_put_spec_witness :
  exists (freed : bool) (m' : gmap Z val),
    Atomic.ref_put 32 16 (one_counter 1) = Some (freed, m')
    /\ Sync.ref_put 32 16 (one_counter 1) = Some (freed, m')
    /\ m' = <[16 := VUInt (to_u_int 32 (1 - 1))]> (one_counter 1)
    /\ (0 < 1 -> m' !! 16 = Some (VUInt (1 - 1)))
    /\ (forall l, l <> 16 -> m' !! l = one_counter 1 !! l)
    /\ (freed = true <-> m' !! 16 = Some (VUInt 0)).
Proof.
  apply (ref_put_spec 32 16 1 (one_counter 1)); [reflexivity | lia].
Defined.

(** C3. [ref_get] on a counter holding [c] stores [c + 1] (in [u_int]
    arithmetic, which is plain [c + 1] unless [c] is [UINT_MAX]) and
    returns the value it stored; every other cell is left as it was.  This
    holds in both variants of the macro. *)
Theorem ref_get_spec (w ref c : Z) (m : gmap Z val) :
  m !! ref = Some (VUInt c) ->
  0 <= c < 2 ^ w ->
  exists (n : Z) (m' : gmap Z val),
    Atomic.ref_get w ref m = Some (n, m')
    /\ Sync.ref_get w ref m = Some (n, m')
    /\ n = to_u_int w (c + 1)
    /\ (c < UINT_MAX w -> n = c + 1)
    /\ m' !! ref = Some (VUInt n)
    /\ (forall l, l <> ref -> m' !! l = m !! l).
Proof.
  intros Hc Hr.
  exists (to_u_int w (c + 1)), (<[ref := VUInt (to_u_int w (c + 1))]> m).
  unfold Atomic.ref_get, Sync.ref_get, __atomic_add_fetch,
    __sync_add_and_fetch, UINT_MAX.
  rewrite Hc. repeat split.
  - intros Hlt. apply u_int_small. lia.
  - apply lookup_insert_eq.
  - intros l Hl. by rewrite lookup_insert_ne.
Qed.

Lemma ref_get_spec_witness :
  exists (n : Z) (m' : gmap Z val),
    Atomic.ref_get 32 16 sample_mem = Some (n, m')
    /\ Sync.ref_get 32 16 sample_mem = Some (n, m')
    /\ n = to_u_int 32 (1 + 1)
    /\ (1 < UINT_MAX 32 -> n = 1 + 1)
    /\ m' !! 16 = Some (VUInt n)
    /\ (forall l, l <> 16 -> m' !! l = sample_mem !! l).
Proof.
  apply (ref_get_spec 32 16 1 sample_mem); [reflexivity | lia].
Defined.

(** C7. [ref_cur] on a counter holding [c] returns [c] and leaves the
    whole memory, the counter included, as it was; this holds in both
    variants of the macro. *)
Theorem ref_cur_spec (w ref c : Z) (m : gmap Z val) :
  m !! ref = Some (VUInt c) ->
  0 <= c < 2 ^ w ->
  Atomic.ref_cur ref m = Some (c, m)
  /\ Sync.ref_cur w ref m = Some (c, m).
Proof.
  intros Hc Hr.
  unfold Atomic.ref_cur, Sync.ref_cur, __atomic_load_n, __sync_fetch_and_add.
  rewrite Hc. split; [done |].
  rewrite Z.add_0_r, u_int_small by done.
  by rewrite insert_id.
Qed.

Lemma ref_cur_spec_witness :
  Atomic.ref_cur 16 sample_mem = Some (1, sample_mem)
  /\ Sync.ref_cur 32 16 sample_mem = Some (1, sample_mem).
Proof.
  apply (ref_cur_spec 32 16 1 sample_mem); [reflexivity | lia].
Defined.

(** C9. [ref_put] on a counter that already holds 0 stores [UINT_MAX]
    ([2^w - 1], the decrement wraps around) and returns false: the call
    goes through like any other and does not report the last reference. *)
Theorem ref_put_zero_wraps (w ref : Z) (m : gmap Z val) :
  16 <= w ->
  m !! ref = Some (VUInt 0) ->
  Atomic.ref_put w ref m = Some (false, <[ref := VUInt (UINT_MAX w)]> m)
  /\ Sync.ref_put w ref m = Some (false, <[ref := VUInt (UINT_MAX w)]> m)
  /\ UINT_MAX w = 2 ^ w - 1
  /\ to_u_int w (0 - 1) = UINT_MAX w.
Proof.
  intros Hw Hc.
  pose proof (pow2_ge_16 w Hw) as Hp.
  assert (Hwrap : to_u_int w (0 - 1) = UINT_MAX w).
  { unfold to_u_int, UINT_MAX.
    symmetry. apply (Z.mod_unique _ _ (-1)); lia. }
  unfold Atomic.ref_put, Sync.ref_put, bind, ret,
    __atomic_sub_fetch, __sync_sub_and_fetch.
  rewrite Hc. cbv zeta. rewrite Hwrap.
  assert (Hnz : (UINT_MAX w =? 0) = false).
  { apply Z.eqb_neq. unfold UINT_MAX. lia. }
  rewrite Hnz. done.
Qed.

Lemma ref_put_zero_wraps_witness :
  Atomic.ref_put 32 16 (one_counter 0)
    = Some (false, <[16 := VUInt (UINT_MAX 32)]> (one_counter 0))
  /\ Sync.ref_put 32 16 (one_counter 0)
    = Some (false, <[16 := VUInt (UINT_MAX 32)]> (one_counter 0))
  /\ UINT_MAX 32 = 2 ^ 32 - 1
  /\ to_u_int 32 (0 - 1) = UINT_MAX 32.
Proof.
  apply (ref_put_zero_wraps 32 16 (one_counter 0)); [lia | reflexivity].
Defined.

Lemma convert_same (P : platform) (T : ctype) (v : val) :
  type_of v = T -> convert P T v = v.
Proof. intros H. unfold convert. by rewrite decide_True. Qed.

Lemma type_of_convert (P : platform) (T : ctype) (v : val) :
  type_of (convert P T v) = T.
Proof. unfold convert. case_decide; [done |]. by destruct T. Qed.

Lemma cas_impl_spec (P : platform) (ptr : Z) (cur oldval newval : val)
    (m : gmap Z val) :
  m !! ptr = Some cur ->
  type_of oldval = type_of cur ->
  type_of newval = type_of cur ->
  Atomic._cas_impl P ptr oldval newval m
  = Some (bool_decide (cur = oldval),
          if bool_decide (cur = oldval) then <[ptr := newval]> m else m)
  /\ __sync_bool_compare_and_swap P ptr oldval newval m
     = Some (bool_decide (cur = oldval),
             if bool_decide (cur = oldval) then <[ptr := newval]> m else m).
Proof.
  intros Hc Ho Hn.
  unfold Atomic._cas_impl, bind, ret, __atomic_compare_exchange_n,
    __sync_bool_compare_and_swap, same_bytes.
  rewrite Hc.
  rewrite !(convert_same P (type_of cur)) by done.
  rewrite (decide_True _ _ Ho).
  destruct (decide (cur = oldval)) as [Heq | Hne].
  - by rewrite bool_decide_eq_true_2.
  - by rewrite bool_decide_eq_false_2.
Qed.





(** Outside that interface the two variants part: on a [bool] that holds
    true, with the expected value [2u], the [__atomic] macro compares the
    byte of the [bool] with the first byte of an [unsigned] temporary (2
    on a little-endian platform, 0 on a big-endian one) and fails, while
    the [__sync] built-in converts the expected value to [bool], finds it
    equal and writes. *)
Lemma cas_variants_part_on_mixed_types
    (P : platform) (ptr : Z) (m : gmap Z val) :
  16 <= uint_bits P ->
  m !! ptr = Some (VBool true) ->
  Atomic._cas_impl P ptr (VUInt 2) (VBool false) m = Some (false, m)
  /\ __sync_bool_compare_and_swap P ptr (VUInt 2) (VBool false) m
     = Some (true, <[ptr := VBool false]> m).
Proof.
  intros Hw Hc. pose proof (pow2_ge_16 _ Hw) as Hp.
  unfold Atomic._cas_impl, bind, ret, __atomic_compare_exchange_n,
    __sync_bool_compare_and_swap, same_bytes, leading.
  rewrite Hc. simpl.
  replace (8 <=? uint_bits P) with true by (symmetry; apply Z.leb_le; lia).
  split; [| done].
  assert (Hx : ((if big_endian P
                 then 2 mod 2 ^ uint_bits P / 2 ^ (uint_bits P - 8)
                 else 2 mod 2 ^ 8) =? 1) = false).
  { apply Z.eqb_neq. destruct (big_endian P); [| done].
    rewrite (Z.mod_small 2) by lia.
    assert (256 <= 2 ^ (uint_bits P - 8)).
    { change 256 with (2 ^ 8). apply Z.pow_le_mono_r; lia. }
    rewrite Z.div_small by lia. done. }
  by rewrite Hx.
Qed.

(** * Properties of traces *)

(** One call of a trace, as [exec] runs it on a memory. *)
Lemma do_call_spec (w ref c : Z) (x : call) (m : gmap Z val) :
  m !! ref = Some (VUInt c) ->
  do_call w ref x m = Some (result w c x, <[ref := VUInt (next w c x)]> m).
Proof.
  intros Hc. destruct x; simpl;
    unfold bind, ret, Atomic.ref_get, Atomic.ref_put, Atomic.ref_cur,
      __atomic_add_fetch, __atomic_sub_fetch, __atomic_load_n, bind, ret;
    rewrite Hc; try done.
  by rewrite insert_id.
Qed.

(** [exec] acts on the cell of the counter as [sim] says and on no other
    cell; it never goes wrong on a counter. *)
Lemma exec_sim (w ref : Z) (t : list call) :
  forall (c : Z) (m : gmap Z val),
    m !! ref = Some (VUInt c) ->
    exec w ref t m
    = Some (fst (sim w c t), <[ref := VUInt (snd (sim w c t))]> m).
Proof.
  induction t as [| x t IH]; intros c m Hc; simpl.
  - unfold ret. by rewrite insert_id.
  - unfold bind at 1. rewrite (do_call_spec w ref c x m Hc).
    unfold bind at 1, peek. rewrite lookup_insert_eq.
    unfold bind at 1.
    rewrite (IH (next w c x) _ (lookup_insert_eq _ _ _)).
    destruct (sim w (next w c x) t) as [evs cf]. simpl.
    unfold ret. by rewrite insert_insert_eq.
Qed.

Lemma sim_length (w : Z) (t : list call) :
  forall c, length (fst (sim w c t)) = length t.
Proof.
  induction t as [| x t IH]; intros c; simpl; [done |].
  specialize (IH (next w c x)).
  destruct (sim w (next w c x) t). simpl in *. by rewrite IH.
Qed.

Lemma next_range (w c : Z) (x : call) :
  0 <= c < 2 ^ w -> 0 <= next w c x < 2 ^ w.
Proof.
  intros Hc. destruct x; simpl; try done;
    unfold to_u_int; apply Z.mod_pos_bound; lia.
Qed.

Lemma next_delta (w c : Z) (x : call) :
  0 <= c < 2 ^ w -> next w c x = to_u_int w (c + delta x).
Proof.
  intros Hc. destruct x; simpl; try done.
  by rewrite Z.add_0_r, u_int_small.
Qed.

Lemma u_int_add_l (w a b : Z) :
  to_u_int w (to_u_int w a + b) = to_u_int w (a + b).
Proof. unfold to_u_int. apply Zplus_mod_idemp_l. Qed.

Lemma gets_puts_cons (x : call) (t : list call) :
  gets (x :: t) - puts (x :: t) = delta x + (gets t - puts t).
Proof. destruct x; simpl; lia. Qed.

Lemma gets_nonneg (t : list call) : 0 <= gets t.
Proof. induction t as [| [] t IH]; simpl; lia. Qed.

Lemma puts_nonneg (t : list call) : 0 <= puts t.
Proof. induction t as [| [] t IH]; simpl; lia. Qed.

(** The counter after a whole trace. *)
Lemma sim_final (w : Z) (t : list call) :
  forall c, 0 <= c < 2 ^ w ->
    snd (sim w c t) = to_u_int w (c + (gets t - puts t)).
Proof.
  induction t as [| x t IH]; intros c Hc.
  - simpl. by rewrite Z.add_0_r, u_int_small.
  - rewrite gets_puts_cons. simpl.
    specialize (IH (next w c x) (next_range w c x Hc)).
    destruct (sim w (next w c x) t) as [evs cf]. simpl in *.
    rewrite IH, next_delta, u_int_add_l by done.
    f_equal. lia.
Qed.

(** The counter after each call of a trace. *)
Lemma sim_after (w : Z) (t : list call) :
  forall (c : Z) (i : nat) (e : event),
    0 <= c < 2 ^ w ->
    fst (sim w c t) !! i = Some e ->
    ev_after e
    = to_u_int w (c + (gets (take (S i) t) - puts (take (S i) t))).
Proof.
  induction t as [| x t IH]; intros c i e Hc He; [done |].
  simpl in He.
  specialize (IH (next w c x)).
  destruct (sim w (next w c x) t) as [evs cf]. simpl in He, IH.
  destruct i as [| i].
  - injection He as <-. simpl ev_after.
    rewrite firstn_cons, take_0, gets_puts_cons. simpl gets. simpl puts.
    rewrite next_delta by done. f_equal. lia.
  - simpl in He.
    rewrite (IH i e (next_range w c x Hc) He).
    rewrite firstn_cons, gets_puts_cons.
    rewrite next_delta, u_int_add_l by done.
    f_equal. lia.
Qed.

Lemma ref_get_run (w ref c : Z) (m : gmap Z val) :
  m !! ref = Some (VUInt c) ->
  Atomic.ref_get w ref m
  = Some (to_u_int w (c + 1), <[ref := VUInt (to_u_int w (c + 1))]> m).
Proof.
  intros Hc. unfold Atomic.ref_get, __atomic_add_fetch. by rewrite Hc.
Qed.

Lemma ref_put_run (w ref c : Z) (m : gmap Z val) :
  m !! ref = Some (VUInt c) ->
  Atomic.ref_put w ref m
  = Some (to_u_int w (c - 1) =? 0, <[ref := VUInt (to_u_int w (c - 1))]> m).
Proof.
  intros Hc. unfold Atomic.ref_put, bind, ret, __atomic_sub_fetch.
  by rewrite Hc.
Qed.

(** C5. From a counter at 1, [ref_get] returns 2 and leaves the counter at
    2; a first [ref_put] then leaves it at 1 and returns false; a second
    [ref_put] leaves it at 0 and returns true.  Over the trace exactly one
    call reports the last reference, and it is the final one. *)
Theorem get_put_put_scenario (w ref : Z) (m : gmap Z val) :
  16 <= w ->
  m !! ref = Some (VUInt new_counter) ->
  let m1 := <[ref := VUInt 2]> m in
  let m2 := <[ref := VUInt 1]> m1 in
  let m3 := <[ref := VUInt 0]> m2 in
  let evs := [Event Get (RCount 2) 2;
              Event Put (RLast false) 1;
              Event Put (RLast true) 0] in
  Atomic.ref_get w ref m = Some (2, m1)
  /\ Atomic.ref_put w ref m1 = Some (false, m2)
  /\ Atomic.ref_put w ref m2 = Some (true, m3)
  /\ exec w ref [Get; Put; Put] m = Some (evs, <[ref := VUInt 0]> m)
  /\ released_once evs
  /\ last evs = Some (Event Put (RLast true) 0).
Proof.
  intros Hw Hc. pose proof (pow2_ge_16 w Hw) as Hp.
  unfold new_counter in Hc.
  assert (H2 : to_u_int w (1 + 1) = 2) by (apply u_int_small; lia).
  assert (H1 : to_u_int w (2 - 1) = 1) by (apply u_int_small; lia).
  assert (H0 : to_u_int w (1 - 1) = 0) by (apply u_int_small; lia).
  cbv zeta. repeat split.
  - by rewrite (ref_get_run w ref 1 m Hc), H2.
  - by rewrite (ref_put_run w ref 2), H1 by apply lookup_insert_eq.
  - by rewrite (ref_put_run w ref 1), H0 by apply lookup_insert_eq.
  - rewrite (exec_sim w ref _ 1 m Hc). simpl. by rewrite H2, H1, H0.
  - repeat constructor; simpl; intros; done.
Qed.

Lemma get_put_put_scenario_witness :
  let m := one_counter new_counter in
  let m1 := <[16 := VUInt 2]> m in
  let m2 := <[16 := VUInt 1]> m1 in
  let m3 := <[16 := VUInt 0]> m2 in
  let evs := [Event Get (RCount 2) 2;
              Event Put (RLast false) 1;
              Event Put (RLast true) 0] in
  Atomic.ref_get 32 16 m = Some (2, m1)
  /\ Atomic.ref_put 32 16 m1 = Some (false, m2)
  /\ Atomic.ref_put 32 16 m2 = Some (true, m3)
  /\ exec 32 16 [Get; Put; Put] m = Some (evs, <[16 := VUInt 0]> m)
  /\ released_once evs
  /\ last evs = Some (Event Put (RLast true) 0).
Proof.
  apply (get_put_put_scenario 32 16 (one_counter new_counter));
    [lia | reflexivity].
Defined.

(** C6, as the counter behaves.  In every trace on a counter created at 1,
    after every call the counter holds 1 plus the number of [ref_get]
    calls made so far minus the number of [ref_put] calls made so far,
    reduced modulo [2^w]; as long as that number is within [0, 2^w) it is
    the counter's value itself. *)
Theorem counter_tracks_calls (w ref : Z) (t : list call) (m : gmap Z val) :
  16 <= w ->
  m !! ref = Some (VUInt new_counter) ->
  exists (evs : list event) (m' : gmap Z val),
    exec w ref t m = Some (evs, m')
    /\ length evs = length t
    /\ (forall (i : nat) (e : event),
          evs !! i = Some e ->
          ev_after e = to_u_int w (held_at new_counter t i))
    /\ ((forall i : nat, 0 <= held_at new_counter t i < 2 ^ w) ->
        tracks new_counter t evs).
Proof.
  intros Hw Hc. pose proof (pow2_ge_16 w Hw) as Hp.
  assert (Hr : 0 <= new_counter < 2 ^ w) by (unfold new_counter; lia).
  assert (Hall : forall (i : nat) (e : event),
             fst (sim w new_counter t) !! i = Some e ->
             ev_after e = to_u_int w (held_at new_counter t i)).
  { intros i e He. by apply sim_after. }
  eexists _, _. split; [by apply exec_sim |].
  split; [apply sim_length |]. split; [exact Hall |].
  intros Hin i e He. rewrite (Hall i e He). by apply u_int_small.
Qed.

Lemma counter_tracks_calls_witness :
  exists (evs : list event) (m' : gmap Z val),
    exec 32 16 [Get; Put; Cur; Put] (one_counter new_counter)
    = Some (evs, m')
    /\ length evs = length [Get; Put; Cur; Put]
    /\ (forall (i : nat) (e : event),
          evs !! i = Some e ->
          ev_after e
          = to_u_int 32 (held_at new_counter [Get; Put; Cur; Put] i))
    /\ ((forall i : nat,
           0 <= held_at new_counter [Get; Put; Cur; Put] i < 2 ^ 32) ->
        tracks new_counter [Get; Put; Cur; Put] evs).
Proof.
  apply (counter_tracks_calls 32 16 [Get; Put; Cur; Put]
           (one_counter new_counter)); [lia | reflexivity].
Defined.

(** C6, as stated, fails: on a counter created at 1, after one [ref_get]
    the counter holds 2, while one [ref_get] minus no [ref_put] is 1. *)
Lemma counter_is_not_gets_minus_puts :
  exec 32 16 [Get] (one_counter new_counter)
  = Some ([Event Get (RCount 2) 2], one_counter 2)
  /\ held_at 0 [Get] 0 = gets [Get] - puts [Get]
  /\ ~ tracks 0 [Get] [Event Get (RCount 2) 2].
Proof.
  split; [by vm_compute |]. split; [done |].
  intros H. specialize (H 0%nat _ eq_refl). by vm_compute in H.
Qed.

(** The reduction modulo [2^w] shows as soon as more references are given
    back than were taken: after two [ref_put] calls on a fresh counter the
    counter holds [UINT_MAX], not -1. *)
Lemma counter_wraps_below_zero :
  exec 32 16 [Put; Put] (one_counter new_counter)
  = Some ([Event Put (RLast true) 0; Event Put (RLast false) (UINT_MAX 32)],
          one_counter (UINT_MAX 32))
  /\ held_at new_counter [Put; Put] 1 = -1.
Proof. split; by vm_compute. Qed.

Lemma count_if_ext (p q : event -> bool) (evs : list event) :
  Forall (fun e => p e = q e) evs -> count_if p evs = count_if q evs.
Proof.
  induction 1 as [| e evs He _ IH]; simpl; [done |]. by rewrite He, IH.
Qed.

(** The last event of a trace shows the counter as the trace leaves it. *)
Lemma sim_last (w : Z) (t : list call) :
  forall (c : Z) (e : event),
    last (fst (sim w c t)) = Some e -> ev_after e = snd (sim w c t).
Proof.
  induction t as [| x t IH]; intros c e He; [done |].
  simpl in *. specialize (IH (next w c x)).
  destruct (sim w (next w c x) t) as [evs cf] eqn:Hs. simpl in *.
  destruct evs as [| e' evs].
  - injection He as <-. destruct t as [| y t]; simpl in Hs.
    + by injection Hs as <-.
    + destruct (sim w (next w (next w c x) y) t). done.
  - by apply IH.
Qed.

(** While every call is made by a holder, the counter is the number of
    references held, no call but the one that gives back the last
    reference leaves it at 0, and that call can only be the final one. *)
Lemma sim_held (w : Z) (t : list call) :
  forall g p : Z,
    0 <= p -> 0 <= g -> 1 + g + gets t < 2 ^ w ->
    calls_held g p t = true ->
    snd (sim w (1 + g - p) t) = 1 + (g + gets t) - (p + puts t)
    /\ Forall ev_ok (fst (sim w (1 + g - p) t))
    /\ (t <> [] ->
        count_if at_zero (fst (sim w (1 + g - p) t))
        = if snd (sim w (1 + g - p) t) =? 0 then 1%nat else 0%nat).
Proof.
  induction t as [| x t IH]; intros g p Hp Hg Hb Hh.
  - simpl. split; [lia |]. split; [constructor | done].
  - simpl in Hh. apply andb_prop in Hh as [Hlt Hh].
    apply Z.ltb_lt in Hlt.
    pose proof (gets_nonneg t) as Hgt.
    assert (Hn : exists g' p',
               next w (1 + g - p) x = 1 + g' - p'
               /\ g' + gets t = g + gets (x :: t)
               /\ p' + puts t = p + puts (x :: t)
               /\ 0 <= p' /\ 0 <= g'
               /\ calls_held g' p' t = true
               /\ result w (1 + g - p) x
                  = match x with
                    | Put => RLast (1 + g' - p' =? 0)
                    | _ => RCount (1 + g' - p')
                    end
               /\ (x <> Put -> 1 + g' - p' <> 0)).
    { destruct x; simpl in *.
      - exists (g + 1), p. rewrite u_int_small by lia.
        repeat split; try lia; try done. f_equal. lia.
      - exists g, (p + 1). rewrite u_int_small by lia.
        repeat split; try lia; try done. do 2 f_equal. lia.
      - exists g, p. repeat split; try lia; done. }
    destruct Hn as (g' & p' & Hnext & Hg' & Hp' & Hp0 & Hg0 & Hh' & Hres & Hnz).
    simpl sim. rewrite Hnext, Hres.
    destruct (IH g' p') as (Hf & Hok & Hcnt); try done; [lia |].
    destruct (sim w (1 + g' - p') t) as [evs cf] eqn:Hs. simpl in *.
    split; [lia |]. split.
    + constructor; [| done].
      unfold ev_ok, is_last, at_zero. simpl.
      destruct x; simpl; try done;
        (split; [symmetry; apply Z.eqb_neq; by apply Hnz | done]).
    + intros _. unfold at_zero at 1. simpl.
      destruct t as [| y t].
      * simpl in Hs. injection Hs as <- <-. simpl.
        destruct (1 + g' - p' =? 0); done.
      * rewrite Hcnt by done.
        simpl in Hh'. apply andb_prop in Hh' as [Hlt' _].
        apply Z.ltb_lt in Hlt'.
        assert (Hne : (1 + g' - p' =? 0) = false) by (apply Z.eqb_neq; lia).
        by rewrite Hne.
Qed.

(** C2, as the counter behaves.  Take a counter created at 1 and a trace
    of [n] [ref_get] and [n + 1] [ref_put] calls in which every call,
    [ref_get] as well as [ref_put], is made while a reference is held (the
    creator and the [ref_get] calls so far outnumber the [ref_put] calls
    so far), with [n + 1 < 2^w] so that the counter cannot overflow.  Then
    the trace runs through, exactly one [ref_put] returns true, it is the
    final call, it brings the counter to 0, and the counter is at 0 after
    no other call. *)
Theorem last_put_releases_once
    (w ref n : Z) (t : list call) (m : gmap Z val) :
  m !! ref = Some (VUInt new_counter) ->
  gets t = n ->
  puts t = n + 1 ->
  n + 1 < 2 ^ w ->
  calls_held 0 0 t = true ->
  exists (evs : list event) (m' : gmap Z val),
    exec w ref t m = Some (evs, m')
    /\ released_once evs
    /\ (exists e : event,
          last evs = Some e /\ ev_call e = Put
          /\ is_last e = true /\ ev_after e = 0)
    /\ m' !! ref = Some (VUInt 0).
Proof.
  intros Hc Hg Hp Hb Hh. unfold new_counter in Hc.
  pose proof (gets_nonneg t) as Hg0.
  assert (Hne : t <> []) by (intros ->; simpl in *; lia).
  destruct (sim_held w t 0 0) as (Hf & Hok & Hcnt); try lia; try done.
  specialize (Hcnt Hne).
  change (1 + 0 - 0) with 1 in *.
  assert (Hz : snd (sim w 1 t) = 0) by lia.
  rewrite Hz in Hcnt. simpl in Hcnt.
  pose proof (sim_length w t 1) as Hlen.
  exists (fst (sim w 1 t)), (<[ref := VUInt 0]> m).
  split; [by rewrite (exec_sim w ref t 1 m Hc), Hz |].
  split; [| split].
  - split; [| split]; [| | done].
    + rewrite <- Hcnt. apply count_if_ext.
      eapply Forall_impl; [exact Hok |]. by intros e [He _].
    + eapply Forall_impl; [exact Hok |].
      intros e [He Hput] Hl. split; [by apply Hput |].
      rewrite He in Hl. by apply Z.eqb_eq.
  - destruct (last (fst (sim w 1 t))) as [e |] eqn:He.
    + assert (Hin : e ∈ fst (sim w 1 t)).
      { apply last_Some in He as [l' ->]. set_solver. }
      rewrite Forall_forall in Hok. destruct (Hok e Hin) as [Heq Hput].
      assert (Ha : ev_after e = 0).
      { rewrite (sim_last w t 1 e He). exact Hz. }
      assert (Hl : is_last e = true).
      { rewrite Heq. unfold at_zero. by rewrite Ha. }
      exists e. repeat split; try done. by apply Hput.
    + apply last_None in He.
      rewrite He in Hlen. destruct t; [done | simpl in Hlen; lia].
  - apply lookup_insert_eq.
Qed.

Lemma last_put_releases_once_witness :
  exists (evs : list event) (m' : gmap Z val),
    exec 32 16 [Get; Get; Put; Put; Put] (one_counter new_counter)
    = Some (evs, m')
    /\ released_once evs
    /\ (exists e : event,
          last evs = Some e /\ ev_call e = Put
          /\ is_last e = true /\ ev_after e = 0)
    /\ m' !! 16 = Some (VUInt 0).
Proof.
  apply (last_put_releases_once 32 16 2 [Get; Get; Put; Put; Put]
           (one_counter new_counter)); try reflexivity; lia.
Defined.

(** C2, as stated, fails: in [ref_put; ref_get; ref_put] on a counter
    created at 1, each [ref_put] is preceded by as many holders as there
    are [ref_put] calls up to it (1 and 1, then 2 and 2), there are one
    [ref_get] and two [ref_put] calls, yet both [ref_put] calls return
    true and the counter is brought to 0 twice: nothing keeps [ref_get]
    from counting up from 0. *)
Lemma put_get_put_releases_twice :
  gets [Put; Get; Put] = 1
  /\ puts [Put; Get; Put] = 1 + 1
  /\ puts_covered 0 0 [Put; Get; Put] = true
  /\ exec 32 16 [Put; Get; Put] (one_counter new_counter)
     = Some ([Event Put (RLast true) 0;
              Event Get (RCount 1) 1;
              Event Put (RLast true) 0], one_counter 0)
  /\ count_if is_last [Event Put (RLast true) 0;
                       Event Get (RCount 1) 1;
                       Event Put (RLast true) 0] = 2%nat
  /\ ~ released_once [Event Put (RLast true) 0;
                      Event Get (RCount 1) 1;
                      Event Put (RLast true) 0].
Proof.
  repeat split; try by vm_compute.
  intros (H & _). by vm_compute in H.
Qed.

(** ** Overflow of the counter

    The bound [n + 1 < 2^w] above is needed: [2^w - 1] calls of [ref_get]
    on a fresh counter wrap it around to 0. *)

Lemma sim_app (w : Z) (t1 t2 : list call) :
  forall c : Z,
    sim w c (t1 ++ t2)
    = (fst (sim w c t1) ++ fst (sim w (snd (sim w c t1)) t2),
       snd (sim w (snd (sim w c t1)) t2)).
Proof.
  induction t1 as [| x t1 IH]; intros c; simpl.
  - by destruct (sim w c t2).
  - rewrite IH. by destruct (sim w (next w c x) t1).
Qed.

Lemma count_if_app (p : event -> bool) (l1 l2 : list event) :
  count_if p (l1 ++ l2) = (count_if p l1 + count_if p l2)%nat.
Proof. induction l1 as [| e l1 IH]; simpl; [done |]. rewrite IH. lia. Qed.

Lemma count_if_last (p : event -> bool) (l : list event) (e : event) :
  last l = Some e -> p e = true -> (1 <= count_if p l)%nat.
Proof.
  intros [l' ->]%last_Some He. rewrite count_if_app. simpl.
  rewrite He. lia.
Qed.

Lemma gets_app (t1 t2 : list call) : gets (t1 ++ t2) = gets t1 + gets t2.
Proof. induction t1 as [| [] t1 IH]; simpl; lia. Qed.

Lemma puts_app (t1 t2 : list call) : puts (t1 ++ t2) = puts t1 + puts t2.
Proof. induction t1 as [| [] t1 IH]; simpl; lia. Qed.

Lemma gets_puts_replicate (k : nat) :
  gets (replicate k Get) = Z.of_nat k /\ puts (replicate k Get) = 0
  /\ gets (replicate k Put) = 0 /\ puts (replicate k Put) = Z.of_nat k.
Proof. induction k as [| k IH]; simpl; lia. Qed.

Lemma calls_held_gets (k : nat) (s : list call) :
  forall g p : Z,
    0 <= p <= g ->
    calls_held g p (replicate k Get ++ s)
    = calls_held (g + Z.of_nat k) p s.
Proof.
  induction k as [| k IH]; intros g p Hp.
  - simpl. f_equal. lia.
  - cbn [replicate app calls_held].
    rewrite IH by lia.
    replace (p <? 1 + g) with true by (symmetry; apply Z.ltb_lt; lia).
    simpl. f_equal. lia.
Qed.

Lemma calls_held_puts (k : nat) :
  forall g p : Z,
    p + Z.of_nat k <= 1 + g -> calls_held g p (replicate k Put) = true.
Proof.
  induction k as [| k IH]; intros g p Hp; [done |].
  cbn [replicate calls_held].
  rewrite IH by lia.
  replace (p <? 1 + g) with true by (symmetry; apply Z.ltb_lt; lia).
  done.
Qed.

Lemma last_replicate_sim (w c : Z) (k : nat) (x : call) :
  k <> 0%nat -> is_Some (last (fst (sim w c (replicate k x)))).
Proof.
  intros Hk.
  destruct (last (fst (sim w c (replicate k x)))) eqn:Hl; [eauto |].
  apply last_None in Hl.
  pose proof (sim_length w (replicate k x) c) as Hlen.
  rewrite Hl, length_replicate in Hlen. simpl in Hlen. lia.
Qed.

(** [2^w - 1] calls of [ref_get] followed by [2^w] calls of [ref_put], on
    a counter created at 1: every call is made by a holder, by the count
    of calls, but the counter is at 0 once after the last [ref_get] and
    once more after the last [ref_put]. *)
Lemma overflow_reaches_zero_twice (w ref : Z) (m : gmap Z val) :
  1 <= w ->
  m !! ref = Some (VUInt new_counter) ->
  let t := replicate (Z.to_nat (2 ^ w - 1)) Get
           ++ replicate (Z.to_nat (2 ^ w)) Put in
  gets t = 2 ^ w - 1
  /\ puts t = (2 ^ w - 1) + 1
  /\ calls_held 0 0 t = true
  /\ exists (evs : list event) (m' : gmap Z val),
       exec w ref t m = Some (evs, m')
       /\ (2 <= count_if at_zero evs)%nat
       /\ ~ released_once evs.
Proof.
  intros Hw Hc t. unfold new_counter in Hc.
  assert (Hp : 2 <= 2 ^ w).
  { change 2 with (2 ^ 1) at 1. apply Z.pow_le_mono_r; lia. }
  subst t.
  set (k1 := Z.to_nat (2 ^ w - 1)). set (k2 := Z.to_nat (2 ^ w)).
  assert (Hk1 : Z.of_nat k1 = 2 ^ w - 1) by (apply Z2Nat.id; lia).
  assert (Hk2 : Z.of_nat k2 = 2 ^ w) by (apply Z2Nat.id; lia).
  clearbody k1 k2.
  destruct (gets_puts_replicate k1) as (Hg1 & Hp1 & _).
  destruct (gets_puts_replicate k2) as (_ & _ & Hg2 & Hp2).
  split; [rewrite gets_app; lia |].
  split; [rewrite puts_app; lia |].
  split.
  { rewrite calls_held_gets by lia. apply calls_held_puts. lia. }
  assert (Hcount : (2 <= count_if at_zero
                          (fst (sim w 1 (replicate k1 Get
                                         ++ replicate k2 Put))))%nat).
  { rewrite sim_app. cbn [fst]. rewrite count_if_app.
    assert (Hmid : snd (sim w 1 (replicate k1 Get)) = 0).
    { rewrite sim_final by lia. rewrite Hg1, Hp1. unfold to_u_int.
      replace (1 + (Z.of_nat k1 - 0)) with (1 * 2 ^ w) by lia.
      apply Z_mod_mult. }
    assert (Hend : snd (sim w 0 (replicate k2 Put)) = 0).
    { rewrite sim_final by lia. rewrite Hg2, Hp2. unfold to_u_int.
      replace (0 + (0 - Z.of_nat k2)) with ((-1) * 2 ^ w) by lia.
      apply Z_mod_mult. }
    destruct (last_replicate_sim w 1 k1 Get) as [e1 He1]; [lia |].
    destruct (last_replicate_sim w 0 k2 Put) as [e2 He2]; [lia |].
    rewrite Hmid.
    assert (H1 : at_zero e1 = true).
    { unfold at_zero. by rewrite (sim_last _ _ _ _ He1), Hmid. }
    assert (H2 : at_zero e2 = true).
    { unfold at_zero. by rewrite (sim_last _ _ _ _ He2), Hend. }
    pose proof (count_if_last at_zero _ e1 He1 H1).
    pose proof (count_if_last at_zero _ e2 He2 H2).
    lia. }
  eexists _, _. split; [by apply exec_sim |].
  split; [exact Hcount |].
  intros (_ & _ & H). rewrite H in Hcount. lia.
Qed.

(** On a 32-bit [u_int]: 4294967295 calls of [ref_get], then 4294967296
    calls of [ref_put]. *)
Lemma overflow_reaches_zero_twice_32 :
  let t := replicate (Z.to_nat (2 ^ 32 - 1)) Get
           ++ replicate (Z.to_nat (2 ^ 32)) Put in
  gets t = 2 ^ 32 - 1
  /\ puts t = (2 ^ 32 - 1) + 1
  /\ calls_held 0 0 t = true
  /\ exists (evs : list event) (m' : gmap Z val),
       exec 32 16 t (one_counter new_counter) = Some (evs, m')
       /\ (2 <= count_if at_zero evs)%nat
       /\ ~ released_once evs.
Proof.
  exact (overflow_reaches_zero_twice 32 16 (one_counter new_counter)
           ltac:(lia) eq_refl).
Qed.

(** * Rounding to a multiple of an alignment *)

Lemma size_t_small (s x : Z) : 0 <= x < 2 ^ s -> to_size_t s x = x.
Proof. intros H. unfold to_size_t. by apply Z.mod_small. Qed.

(** The padding is the residue of [- size]. *)
Lemma pad_len_eq (s size a : Z) :
  0 < a < 2 ^ s -> pad_len s size a = Some ((- size) mod a).
Proof.
  intros Ha. unfold pad_len.
  replace (a =? 0) with false by (symmetry; apply Z.eqb_neq; lia).
  f_equal. destruct (size mod a =? 0) eqn:Hr; simpl.
  - apply Z.eqb_eq in Hr. rewrite Z.mod_opp_l_z; lia.
  - apply Z.eqb_neq in Hr.
    pose proof (Z.mod_pos_bound size a) as Hb.
    rewrite Z.mod_opp_l_nz by lia. apply size_t_small. lia.
Qed.

Lemma pad_sum_multiple (size a : Z) :
  0 < a -> (size + (- size) mod a) mod a = 0.
Proof.
  intros Ha. rewrite Zplus_mod_idemp_r.
  replace (size + - size) with 0 by lia. apply Z.mod_0_l. lia.
Qed.

Lemma pad_least (size a q : Z) :
  0 < a -> 0 <= q -> (size + q) mod a = 0 -> (- size) mod a <= q.
Proof.
  intros Ha Hq Hm.
  assert (Hqm : q mod a = (- size) mod a).
  { replace q with ((size + q) + - size) at 1 by lia.
    rewrite Zplus_mod, Hm, Z.add_0_l. apply Zmod_mod. }
  rewrite <- Hqm. apply Z.mod_le; lia.
Qed.

(** X1. [pad_len] returns the least number of bytes to add to [size] to
    reach a multiple of [alignment]: it is below [alignment], and 0
    exactly when [size] is a multiple already. *)
Theorem pad_len_least (s size a : Z) :
  0 <= size ->
  0 < a < 2 ^ s ->
  exists p : Z,
    pad_len s size a = Some p
    /\ 0 <= p < a
    /\ (size + p) mod a = 0
    /\ (p = 0 <-> size mod a = 0)
    /\ (forall q : Z, 0 <= q -> (size + q) mod a = 0 -> p <= q).
Proof.
  intros Hs Ha. exists ((- size) mod a).
  split; [by apply pad_len_eq |].
  split; [apply Z.mod_pos_bound; lia |].
  split; [apply pad_sum_multiple; lia |].
  split.
  - split; intros H.
    + pose proof (pad_sum_multiple size a ltac:(lia)) as Hm.
      rewrite H, Z.add_0_r in Hm. done.
    + apply Z.mod_opp_l_z; [lia | done].
  - intros q Hq Hm. apply pad_least; [lia | done | done].
Qed.

Lemma pad_len_least_witness :
  exists p : Z,
    pad_len 64 13 8 = Some p
    /\ 0 <= p < 8
    /\ (13 + p) mod 8 = 0
    /\ (p = 0 <-> 13 mod 8 = 0)
    /\ (forall q : Z, 0 <= q -> (13 + q) mod 8 = 0 -> p <= q).
Proof. apply (pad_len_least 64 13 8); lia. Defined.

(** X2. When some multiple of [alignment] at or above [size] fits in a
    [size_t], [round_up] returns the least multiple of [alignment] that
    is at least [size]; it exceeds [size] by less than [alignment]. *)
Theorem round_up_least (s size a k : Z) :
  0 <= size ->
  0 < a < 2 ^ s ->
  size <= a * k < 2 ^ s ->
  exists r : Z,
    round_up s size a = Some r
    /\ size <= r < size + a
    /\ r mod a = 0
    /\ r <= a * k
    /\ (forall j : Z, size <= a * j -> r <= a * j).
Proof.
  intros Hs Ha Hk.
  pose proof (Z.mod_pos_bound (- size) a ltac:(lia)) as Hp.
  assert (Hleast : forall j : Z, size <= a * j ->
                                 size + (- size) mod a <= a * j).
  { intros j Hj.
    pose proof (pad_least size a (a * j - size) ltac:(lia) ltac:(lia)) as H.
    replace (size + (a * j - size)) with (j * a) in H by lia.
    rewrite Z_mod_mult in H. specialize (H eq_refl). lia. }
  pose proof (Hleast k ltac:(lia)) as Hle.
  exists (size + (- size) mod a).
  unfold round_up. rewrite pad_len_eq by done.
  rewrite size_t_small by lia.
  split; [done |]. split; [lia |].
  split; [apply pad_sum_multiple; lia |].
  split; [done | exact Hleast].
Qed.

Lemma round_up_least_witness :
  exists r : Z,
    round_up 64 13 8 = Some r
    /\ 13 <= r < 13 + 8
    /\ r mod 8 = 0
    /\ r <= 8 * 2
    /\ (forall j : Z, 13 <= 8 * j -> r <= 8 * j).
Proof. apply (round_up_least 64 13 8 2); lia. Defined.

(** X3. When no multiple of [alignment] at or above [size] fits in a
    [size_t], [round_up] does not fail: the addition wraps around and the
    result is below [size]. *)
Theorem round_up_wraps (s size a : Z) :
  0 <= size < 2 ^ s ->
  0 < a < 2 ^ s ->
  (forall j : Z, size <= a * j -> 2 ^ s <= a * j) ->
  exists r : Z,
    round_up s size a = Some r
    /\ r = size + (- size) mod a - 2 ^ s
    /\ 0 <= r < size.
Proof.
  intros Hs Ha Hno.
  pose proof (Z.mod_pos_bound (- size) a ltac:(lia)) as Hp.
  assert (Hge : 2 ^ s <= size + (- size) mod a).
  { pose proof (pad_sum_multiple size a ltac:(lia)) as Hm.
    apply Z.mod_divide in Hm as [j Hj]; [| lia].
    rewrite Hj. rewrite Z.mul_comm. apply Hno. lia. }
  exists (size + (- size) mod a - 2 ^ s).
  unfold round_up. rewrite pad_len_eq by done.
  split; [| split; [done | lia]].
  f_equal. unfold to_size_t.
  symmetry. apply (Z.mod_unique _ _ 1); lia.
Qed.

Lemma round_up_wraps_witness :
  exists r : Z,
    round_up 64 (2 ^ 64 - 3) 8 = Some r
    /\ r = (2 ^ 64 - 3) + (- (2 ^ 64 - 3)) mod 8 - 2 ^ 64
    /\ 0 <= r < 2 ^ 64 - 3.
Proof.
  apply (round_up_wraps 64 (2 ^ 64 - 3) 8); [lia | lia |].
  intros j Hj. lia.
Defined.

(** X4. [round_down] returns the greatest multiple of [alignment] that is
    at most [size]; it is below [size] by less than [alignment] and the
    subtraction never wraps. *)
Theorem round_down_greatest (s size a : Z) :
  0 <= size < 2 ^ s ->
  0 < a ->
  exists r : Z,
    round_down s size a = Some r
    /\ 0 <= r <= size
    /\ size - r < a
    /\ r mod a = 0
    /\ (forall j : Z, a * j <= size -> a * j <= r).
Proof.
  intros Hs Ha.
  pose proof (Z.mod_pos_bound size a Ha) as Hr.
  pose proof (Z.mod_le size a ltac:(lia) Ha) as Hle.
  pose proof (Z.div_mod size a ltac:(lia)) as Hdm.
  exists (size - size mod a).
  unfold round_down.
  replace (a =? 0) with false by (symmetry; apply Z.eqb_neq; lia).
  rewrite size_t_small by lia.
  split; [done |]. split; [lia |]. split; [lia |]. split.
  - replace (size - size mod a) with (size / a * a) by lia.
    apply Z_mod_mult.
  - intros j Hj.
    assert (j <= size / a) by (apply Z.div_le_lower_bound; lia).
    nia.
Qed.

Lemma round_down_greatest_witness :
  exists r : Z,
    round_down 64 13 8 = Some r
    /\ 0 <= r <= 13
    /\ 13 - r < 8
    /\ r mod 8 = 0
    /\ (forall j : Z, 8 * j <= 13 -> 8 * j <= r).
Proof. apply (round_down_greatest 64 13 8); lia. Defined.

Lemma round_down_eq (s size a : Z) :
  0 <= size < 2 ^ s -> 0 < a ->
  round_down s size a = Some (size - size mod a).
Proof.
  intros Hs Ha.
  pose proof (Z.mod_pos_bound size a Ha) as Hr.
  pose proof (Z.mod_le size a ltac:(lia) Ha) as Hle.
  unfold round_down.
  replace (a =? 0) with false by (symmetry; apply Z.eqb_neq; lia).
  by rewrite size_t_small by lia.
Qed.

Lemma round_up_eq (s size a k : Z) :
  0 <= size -> 0 < a < 2 ^ s -> size <= a * k < 2 ^ s ->
  round_up s size a = Some (size + (- size) mod a)
  /\ size + (- size) mod a <= a * k.
Proof.
  intros Hs Ha Hk.
  pose proof (Z.mod_pos_bound (- size) a ltac:(lia)) as Hp.
  assert (Hle : size + (- size) mod a <= a * k).
  { pose proof (pad_least size a (a * k - size) ltac:(lia) ltac:(lia)) as H.
    replace (size + (a * k - size)) with (k * a) in H by lia.
    rewrite Z_mod_mult in H. specialize (H eq_refl). lia. }
  split; [| done].
  unfold round_up. rewrite pad_len_eq by done.
  by rewrite size_t_small by lia.
Qed.

Lemma multiple_fixed (s size a : Z) :
  0 <= size < 2 ^ s -> 0 < a < 2 ^ s -> size mod a = 0 ->
  round_up s size a = Some size /\ round_down s size a = Some size.
Proof.
  intros Hs Ha Hm. split.
  - unfold round_up. rewrite pad_len_eq by done.
    rewrite Z.mod_opp_l_z by lia.
    by rewrite Z.add_0_r, size_t_small.
  - rewrite round_down_eq by lia. rewrite Hm. f_equal. lia.
Qed.

(** X5. When some multiple of [alignment] at or above [size] fits in a
    [size_t], [round_down] and [round_up] enclose [size]; they coincide
    with [size] when it is a multiple of [alignment] and are otherwise
    exactly one [alignment] apart, and [pad_len] is the distance from
    [size] up to [round_up]. *)
Theorem round_up_down_gap (s size a k : Z) :
  0 <= size ->
  0 < a < 2 ^ s ->
  size <= a * k < 2 ^ s ->
  exists u d : Z,
    round_up s size a = Some u
    /\ round_down s size a = Some d
    /\ pad_len s size a = Some (u - size)
    /\ d <= size <= u
    /\ u - d = (if size mod a =? 0 then 0 else a).
Proof.
  intros Hs Ha Hk.
  destruct (round_up_eq s size a k Hs Ha Hk) as [Hu Hle].
  pose proof (Z.mod_pos_bound (- size) a ltac:(lia)) as Hp.
  pose proof (Z.mod_pos_bound size a ltac:(lia)) as Hr.
  exists (size + (- size) mod a), (size - size mod a).
  split; [done |].
  split; [apply round_down_eq; lia |].
  split; [rewrite pad_len_eq by done; f_equal; lia |].
  split; [lia |].
  destruct (size mod a =? 0) eqn:Hz.
  - apply Z.eqb_eq in Hz. rewrite Z.mod_opp_l_z; lia.
  - apply Z.eqb_neq in Hz. rewrite Z.mod_opp_l_nz; lia.
Qed.

Lemma round_up_down_gap_witness :
  exists u d : Z,
    round_up 64 13 8 = Some u
    /\ round_down 64 13 8 = Some d
    /\ pad_len 64 13 8 = Some (u - 13)
    /\ d <= 13 <= u
    /\ u - d = (if 13 mod 8 =? 0 then 0 else 8).
Proof. apply (round_up_down_gap 64 13 8 2); lia. Defined.

(** X6. When some multiple of [alignment] at or above [size] fits in a
    [size_t], rounding is idempotent: what [round_up] and [round_down]
    return is left unchanged by both functions. *)
Theorem rounding_idempotent (s size a k : Z) :
  0 <= size ->
  0 < a < 2 ^ s ->
  size <= a * k < 2 ^ s ->
  exists u d : Z,
    round_up s size a = Some u
    /\ round_down s size a = Some d
    /\ round_up s u a = Some u
    /\ round_down s u a = Some u
    /\ round_up s d a = Some d
    /\ round_down s d a = Some d.
Proof.
  intros Hs Ha Hk.
  destruct (round_up_eq s size a k Hs Ha Hk) as [Hu Hle].
  pose proof (Z.mod_pos_bound (- size) a ltac:(lia)) as Hp.
  pose proof (Z.mod_pos_bound size a ltac:(lia)) as Hr.
  pose proof (Z.div_mod size a ltac:(lia)) as Hdm.
  pose proof (Z.mod_le size a ltac:(lia) ltac:(lia)) as Hrle.
  assert (Hum : (size + (- size) mod a) mod a = 0).
  { apply pad_sum_multiple. lia. }
  assert (Hdmul : (size - size mod a) mod a = 0).
  { replace (size - size mod a) with (size / a * a) by lia.
    apply Z_mod_mult. }
  exists (size + (- size) mod a), (size - size mod a).
  split; [done |].
  split; [apply round_down_eq; lia |].
  destruct (multiple_fixed s (size + (- size) mod a) a) as [H1 H2];
    [lia | done | done |].
  destruct (multiple_fixed s (size - size mod a) a) as [H3 H4];
    [lia | done | done |].
  done.
Qed.

Lemma rounding_idempotent_witness :
  exists u d : Z,
    round_up 64 13 8 = Some u
    /\ round_down 64 13 8 = Some d
    /\ round_up 64 u 8 = Some u
    /\ round_down 64 u 8 = Some u
    /\ round_up 64 d 8 = Some d
    /\ round_down 64 d 8 = Some d.
Proof. apply (rounding_idempotent 64 13 8 2); lia. Defined.

(** X7. Rounding is monotone: a larger [size] never rounds, up or down,
    to a smaller result. *)
Theorem rounding_monotone (s x y a k : Z) :
  0 <= x <= y ->
  0 < a < 2 ^ s ->
  y <= a * k < 2 ^ s ->
  exists ux uy dx dy : Z,
    round_up s x a = Some ux
    /\ round_up s y a = Some uy
    /\ round_down s x a = Some dx
    /\ round_down s y a = Some dy
    /\ ux <= uy
    /\ dx <= dy.
Proof.
  intros Hxy Ha Hk.
  destruct (round_up_eq s x a k) as [Hux Hxk]; [lia | done | lia |].
  destruct (round_up_eq s y a k) as [Huy Hyk]; [lia | done | lia |].
  pose proof (Z.mod_pos_bound (- y) a ltac:(lia)) as Hpy.
  eexists _, _, _, _.
  split; [exact Hux |]. split; [exact Huy |].
  split; [apply round_down_eq; lia |].
  split; [apply round_down_eq; nia |].
  split.
  - assert (H : (- x) mod a <= y + (- y) mod a - x).
    { apply pad_least; [lia | lia |].
      replace (x + (y + (- y) mod a - x)) with (y + (- y) mod a) by lia.
      apply pad_sum_multiple. lia. }
    lia.
  - pose proof (Z.div_mod x a ltac:(lia)).
    pose proof (Z.div_mod y a ltac:(lia)).
    assert (x / a <= y / a) by (apply Z.div_le_mono; lia).
    nia.
Qed.

Lemma rounding_monotone_witness :
  exists ux uy dx dy : Z,
    round_up 64 13 8 = Some ux
    /\ round_up 64 17 8 = Some uy
    /\ round_down 64 13 8 = Some dx
    /\ round_down 64 17 8 = Some dy
    /\ ux <= uy
    /\ dx <= dy.
Proof. apply (rounding_monotone 64 13 17 8 3); lia. Defined.

(** * Statement-expression and variadic macros *)

(** X8. [max] and [min] evaluate their first operand, then their second,
    once each, and return the larger, respectively the smaller, of the
    two values; the memory is the one left by the two evaluations. *)
Theorem max_min_evaluate_once
    (x y : M Z) (m m1 m2 : gmap Z val) (a b : Z) :
  x m = Some (a, m1) ->
  y m1 = Some (b, m2) ->
  Macros.max x y m = Some (Z.max a b, m2)
  /\ Macros.min x y m = Some (Z.min a b, m2).
Proof.
  intros Hx Hy. unfold Macros.max, Macros.min, bind, ret.
  rewrite Hx, Hy. split; do 2 f_equal.
  - destruct (a >? b) eqn:H.
    + apply Z.gtb_lt in H. lia.
    + rewrite Z.gtb_ltb in H. apply Z.ltb_ge in H. lia.
  - destruct (a <? b) eqn:H.
    + apply Z.ltb_lt in H. lia.
    + apply Z.ltb_ge in H. lia.
Qed.

Lemma max_min_evaluate_once_witness :
  Macros.max (Atomic.ref_get 32 16) (Atomic.ref_get 32 16) (one_counter 1)
  = Some (Z.max 2 3, one_counter 3)
  /\ Macros.min (Atomic.ref_get 32 16) (Atomic.ref_get 32 16) (one_counter 1)
     = Some (Z.min 2 3, one_counter 3).
Proof.
  apply (max_min_evaluate_once (Atomic.ref_get 32 16) (Atomic.ref_get 32 16)
           (one_counter 1) (one_counter 2) (one_counter 3) 2 3);
    by vm_compute.
Defined.

(** X9. For 0 to 10 arguments, [VA_ARGS_NUM] expands to the number of
    its arguments. *)
Theorem VA_ARGS_NUM_counts (args : list string) :
  (length args <= 10)%nat ->
  Macros.VA_ARGS_NUM args = Some (pretty (length args)).
Proof.
  intros H.
  do 11 (destruct args as [| ? args]; [reflexivity |]).
  simpl in H. lia.
Qed.

Lemma VA_ARGS_NUM_counts_witness :
  Macros.VA_ARGS_NUM ["a"; "b"; "c"]%string
  = Some (pretty (length ["a"; "b"; "c"]%string)).
Proof.
  apply (VA_ARGS_NUM_counts ["a"; "b"; "c"]%string). simpl. lia.
Defined.

(** X10. With more than 10 arguments, [VA_ARGS_NUM] does not expand to a
    count any more but to its own eleventh argument. *)
Theorem VA_ARGS_NUM_beyond_ten (args : list string) :
  (10 < length args)%nat ->
  Macros.VA_ARGS_NUM args = args !! 10%nat.
Proof.
  intros H.
  do 11 (destruct args as [| ? args]; [simpl in H; lia |]).
  reflexivity.
Qed.

Lemma VA_ARGS_NUM_beyond_ten_witness :
  Macros.VA_ARGS_NUM
    ["a"; "b"; "c"; "d"; "e"; "f"; "g"; "h"; "i"; "j"; "k"; "l"]%string
  = ["a"; "b"; "c"; "d"; "e"; "f"; "g"; "h"; "i"; "j"; "k"; "l"]%string
    !! 10%nat.
Proof.
  apply (VA_ARGS_NUM_beyond_ten
           ["a"; "b"; "c"; "d"; "e"; "f"; "g"; "h"; "i"; "j"; "k"; "l"]%string).
  simpl. lia.
Defined.

(** * How calls on counters compose *)

Lemma u_int_sub_l (w a b : Z) :
  to_u_int w (to_u_int w a - b) = to_u_int w (a - b).
Proof. unfold to_u_int. apply Zminus_mod_idemp_l. Qed.

(** X12. Taking a reference and giving it back, in either order, leaves
    the whole memory as it was, also when the counter wraps in between;
    [ref_put] after [ref_get] reports the last reference exactly when the
    counter was 0 to begin with, and [ref_get] after [ref_put] returns the
    original count. *)
Theorem get_put_round_trip (w ref c : Z) (m : gmap Z val) :
  m !! ref = Some (VUInt c) ->
  0 <= c < 2 ^ w ->
  (n <- Atomic.ref_get w ref ;; b <- Atomic.ref_put w ref ;; ret (n, b)) m
  = Some ((to_u_int w (c + 1), c =? 0), m)
  /\ (b <- Atomic.ref_put w ref ;; n <- Atomic.ref_get w ref ;; ret (b, n)) m
     = Some ((to_u_int w (c - 1) =? 0, c), m).
Proof.
  intros Hc Hr. split.
  - unfold bind at 1. rewrite (ref_get_run w ref c m Hc).
    unfold bind at 1.
    rewrite (ref_put_run w ref (to_u_int w (c + 1)))
      by apply lookup_insert_eq.
    rewrite u_int_sub_l. replace (c + 1 - 1) with c by lia.
    rewrite (u_int_small w c) by done.
    unfold ret. by rewrite insert_insert_eq, insert_id.
  - unfold bind at 1. rewrite (ref_put_run w ref c m Hc).
    unfold bind at 1.
    rewrite (ref_get_run w ref (to_u_int w (c - 1)))
      by apply lookup_insert_eq.
    rewrite u_int_add_l. replace (c - 1 + 1) with c by lia.
    rewrite (u_int_small w c) by done.
    unfold ret. by rewrite insert_insert_eq, insert_id.
Qed.

Lemma get_put_round_trip_witness :
  (n <- Atomic.ref_get 32 16 ;; b <- Atomic.ref_put 32 16 ;; ret (n, b))
    sample_mem
  = Some ((to_u_int 32 (1 + 1), 1 =? 0), sample_mem)
  /\ (b <- Atomic.ref_put 32 16 ;; n <- Atomic.ref_get 32 16 ;; ret (b, n))
       sample_mem
     = Some ((to_u_int 32 (1 - 1) =? 0, 1), sample_mem).
Proof.
  apply (get_put_round_trip 32 16 1 sample_mem); [reflexivity | lia].
Defined.

(** X13. [ref_get] on a counter that holds [UINT_MAX] wraps it around to
    0 and returns 0: the counter then reads as if no reference were held,
    and nothing reports it.  Both variants of the macro behave so. *)
Theorem ref_get_max_wraps (w ref : Z) (m : gmap Z val) :
  m !! ref = Some (VUInt (UINT_MAX w)) ->
  Atomic.ref_get w ref m = Some (0, <[ref := VUInt 0]> m)
  /\ Sync.ref_get w ref m = Some (0, <[ref := VUInt 0]> m).
Proof.
  intros Hc.
  assert (H0 : to_u_int w (UINT_MAX w + 1) = 0).
  { unfold to_u_int, UINT_MAX.
    replace (2 ^ w - 1 + 1) with (2 ^ w) by lia. apply Z_mod_same_full. }
  unfold Atomic.ref_get, Sync.ref_get, __atomic_add_fetch,
    __sync_add_and_fetch.
  rewrite Hc. cbv zeta. by rewrite H0.
Qed.

Lemma ref_get_max_wraps_witness :
  Atomic.ref_get 32 16 (one_counter (UINT_MAX 32))
  = Some (0, <[16 := VUInt 0]> (one_counter (UINT_MAX 32)))
  /\ Sync.ref_get 32 16 (one_counter (UINT_MAX 32))
     = Some (0, <[16 := VUInt 0]> (one_counter (UINT_MAX 32))).
Proof.
  apply (ref_get_max_wraps 32 16 (one_counter (UINT_MAX 32))). reflexivity.
Defined.

(** X14. The memory a trace leaves depends only on how many more
    [ref_get] than [ref_put] calls it makes, not on their order; a trace
    with as many [ref_put] as [ref_get] calls leaves the memory as it
    found it, whatever happened in between. *)
Theorem final_counter_by_balance
    (w ref c : Z) (t1 t2 : list call) (m : gmap Z val) :
  m !! ref = Some (VUInt c) ->
  0 <= c < 2 ^ w ->
  gets t1 - puts t1 = gets t2 - puts t2 ->
  exists (e1 e2 : list event) (m' : gmap Z val),
    exec w ref t1 m = Some (e1, m')
    /\ exec w ref t2 m = Some (e2, m')
    /\ (gets t1 = puts t1 -> m' = m).
Proof.
  intros Hc Hr Hb.
  exists (fst (sim w c t1)), (fst (sim w c t2)),
    (<[ref := VUInt (snd (sim w c t1))]> m).
  split; [by apply exec_sim |]. split.
  - rewrite (exec_sim w ref t2 c m Hc).
    by rewrite !sim_final, Hb by done.
  - intros Heq. rewrite sim_final by done.
    replace (gets t1 - puts t1) with 0 by lia.
    rewrite Z.add_0_r, u_int_small by done. by apply insert_id.
Qed.

Lemma final_counter_by_balance_witness :
  exists (e1 e2 : list event) (m' : gmap Z val),
    exec 32 16 [Get; Put; Put; Get] sample_mem = Some (e1, m')
    /\ exec 32 16 [Put; Get; Cur] sample_mem = Some (e2, m')
    /\ (gets [Get; Put; Put; Get] = puts [Get; Put; Put; Get] ->
        m' = sample_mem).
Proof.
  apply (final_counter_by_balance 32 16 1 [Get; Put; Put; Get]
           [Put; Get; Cur] sample_mem); [reflexivity | lia | reflexivity].
Defined.

(** Running a trace made of two parts is running the first part and then
    the second on the memory the first one left; the events are those of
    the first part followed by those of the second.  This holds on every
    memory, also where a call goes wrong. *)
Lemma exec_app (w ref : Z) (t1 t2 : list call) (m : gmap Z val) :
  exec w ref (t1 ++ t2) m
  = (e1 <- exec w ref t1 ;; e2 <- exec w ref t2 ;; ret (e1 ++ e2)) m.
Proof.
  revert m. induction t1 as [| x t1 IH]; intros m.
  - simpl. unfold bind, ret. by destruct (exec w ref t2 m) as [[e2 m2] |].
  - cbn [exec app]. unfold bind, ret in *.
    destruct (do_call w ref x m) as [[r m1] |]; [| done].
    destruct (peek ref m1) as [[v m2] |]; [| done].
    rewrite IH.
    destruct (exec w ref t1 m2) as [[e1 m3] |]; [| done].
    by destruct (exec w ref t2 m3) as [[e2 m4] |].
Qed.

(** * How compare-and-swap calls compose *)

Lemma cas_each_lost (P : platform) (ptr : Z) (cur oldval : val)
    (ns : list val) :
  forall m : gmap Z val,
    m !! ptr = Some cur ->
    cur <> oldval ->
    type_of oldval = type_of cur ->
    Forall (fun n => type_of n = type_of cur) ns ->
    cas_each P ptr oldval ns m = Some (replicate (length ns) false, m).
Proof.
  intros m Hc Hne Ho Hns. induction Hns as [| n ns Hn _ IH]; [done |].
  simpl. unfold bind at 1.
  destruct (cas_impl_spec P ptr cur oldval n m Hc Ho Hn) as [-> _].
  rewrite bool_decide_eq_false_2 by done.
  unfold bind at 1. by rewrite IH.
Qed.





(** * Independence and invariants *)

(** X17. Calls on two different counters do not interfere: made in
    either order they return the same values and leave the same
    memory. *)
Theorem calls_on_distinct_counters_commute
    (w r1 r2 c1 c2 : Z) (x y : call) (m : gmap Z val) :
  r1 <> r2 ->
  m !! r1 = Some (VUInt c1) ->
  m !! r2 = Some (VUInt c2) ->
  (a <- do_call w r1 x ;; b <- do_call w r2 y ;; ret (a, b)) m
  = Some ((result w c1 x, result w c2 y),
          <[r2 := VUInt (next w c2 y)]> (<[r1 := VUInt (next w c1 x)]> m))
  /\ (b <- do_call w r2 y ;; a <- do_call w r1 x ;; ret (a, b)) m
     = (a <- do_call w r1 x ;; b <- do_call w r2 y ;; ret (a, b)) m.
Proof.
  intros Hne H1 H2.
  assert (Hxy : (a <- do_call w r1 x ;; b <- do_call w r2 y ;; ret (a, b)) m
                = Some ((result w c1 x, result w c2 y),
                        <[r2 := VUInt (next w c2 y)]>
                          (<[r1 := VUInt (next w c1 x)]> m))).
  { unfold bind at 1. rewrite (do_call_spec w r1 c1 x m H1).
    unfold bind at 1. rewrite (do_call_spec w r2 c2 y).
    - done.
    - by rewrite lookup_insert_ne. }
  split; [exact Hxy |]. rewrite Hxy.
  unfold bind at 1. rewrite (do_call_spec w r2 c2 y m H2).
  unfold bind at 1. rewrite (do_call_spec w r1 c1 x).
  - unfold ret. by rewrite insert_insert_ne.
  - by rewrite lookup_insert_ne.
Qed.

Lemma calls_on_distinct_counters_commute_witness :
  let m := <[40 := VUInt 5]> sample_mem in
  (a <- do_call 32 16 Get ;; b <- do_call 32 40 Put ;; ret (a, b)) m
  = Some ((result 32 1 Get, result 32 5 Put),
          <[40 := VUInt (next 32 5 Put)]> (<[16 := VUInt (next 32 1 Get)]> m))
  /\ (b <- do_call 32 40 Put ;; a <- do_call 32 16 Get ;; ret (a, b)) m
     = (a <- do_call 32 16 Get ;; b <- do_call 32 40 Put ;; ret (a, b)) m.
Proof.
  apply (calls_on_distinct_counters_commute 32 16 40 1 5 Get Put
           (<[40 := VUInt 5]> sample_mem)); [lia | reflexivity | reflexivity].
Defined.

Lemma shape_insert_same (m : gmap Z val) (l : Z) (v v' : val) :
  m !! l = Some v -> type_of v' = type_of v ->
  shape (<[l := v']> m) = shape m.
Proof.
  intros Hl Hty. unfold shape. rewrite fmap_insert, Hty.
  apply insert_id. by rewrite lookup_fmap, Hl.
Qed.

(** X18. A trace of calls on a counter neither adds nor removes an object
    nor changes the type of any: the memory keeps its shape, and every
    counter in it stays within the range of [u_int]. *)
Theorem exec_keeps_shape
    (w ref c : Z) (t : list call) (m : gmap Z val) :
  m !! ref = Some (VUInt c) ->
  wf_mem w m ->
  exists (evs : list event) (m' : gmap Z val),
    exec w ref t m = Some (evs, m')
    /\ shape m' = shape m
    /\ dom m' = dom m
    /\ wf_mem w m'.
Proof.
  intros Hc Hwf.
  pose proof (Hwf ref _ Hc) as Hr. simpl in Hr.
  eexists _, _. split; [by apply exec_sim |].
  split; [by apply (shape_insert_same m ref (VUInt c)) |].
  split.
  - apply dom_insert_lookup_L. eauto.
  - apply map_Forall_insert_2; [| done]. simpl.
    rewrite sim_final by done. unfold to_u_int.
    apply Z.mod_pos_bound. lia.
Qed.

Lemma exec_keeps_shape_witness :
  exists (evs : list event) (m' : gmap Z val),
    exec 32 16 [Put; Put; Get] sample_mem = Some (evs, m')
    /\ shape m' = shape sample_mem
    /\ dom m' = dom sample_mem
    /\ wf_mem 32 m'.
Proof.
  apply (exec_keeps_shape 32 16 1 [Put; Put; Get] sample_mem);
    [reflexivity |].
  unfold wf_mem, sample_mem.
  repeat apply map_Forall_insert_2; simpl; try lia; try done.
Defined.

(** X19. A compare-and-swap, whether it succeeds or fails, neither adds
    nor removes an object nor changes the type of any. *)
Theorem cas_keeps_shape
    (P : platform) (ptr : Z) (oldval newval : val) (m m' : gmap Z val)
    (ok : bool) :
  Atomic._cas_impl P ptr oldval newval m = Some (ok, m') ->
  shape m' = shape m /\ dom m' = dom m.
Proof.
  unfold Atomic._cas_impl, bind, ret, __atomic_compare_exchange_n.
  destruct (m !! ptr) as [cur |] eqn:Hc; [| done].
  assert (Hs : shape (<[ptr := convert P (type_of cur) newval]> m)
               = shape m).
  { apply (shape_insert_same m ptr cur); [done |]. apply type_of_convert. }
  assert (Hd : dom (<[ptr := convert P (type_of cur) newval]> m) = dom m).
  { apply dom_insert_lookup_L. eauto. }
  destruct (same_bytes P cur oldval) as [[|] |]; [| | done];
    intros [= <- <-]; done.
Qed.

Lemma cas_keeps_shape_witness :
  shape (<[32 := VPtr 64]> sample_mem) = shape sample_mem
  /\ dom (<[32 := VPtr 64]> sample_mem) = dom sample_mem.
Proof.
  apply (cas_keeps_shape lp64 32 (VPtr 0) (VPtr 64) sample_mem
           (<[32 := VPtr 64]> sample_mem) true).
  by vm_compute.
Defined.

Lemma count_if_none (p : event -> bool) (l : list event) :
  count_if p l = 0%nat -> Forall (fun e => p e = false) l.
Proof.
  induction l as [| e l IH]; simpl; intros H; [constructor |].
  destruct (p e) eqn:He; [lia |]. constructor; [done | apply IH; lia].
Qed.

(** X20. On a counter created at 1, as long as every call is made while a
    reference is held and the counter cannot overflow, no call before the
    final one of a trace is told that it gave back the last reference,
    and none leaves the counter at 0: whatever the numbers of [ref_get]
    and [ref_put] calls, only the final call can release the object. *)
Theorem held_trace_no_early_release
    (w ref : Z) (t : list call) (m : gmap Z val) :
  m !! ref = Some (VUInt new_counter) ->
  gets t + 1 < 2 ^ w ->
  calls_held 0 0 t = true ->
  exists (evs : list event) (m' : gmap Z val),
    exec w ref t m = Some (evs, m')
    /\ length evs = length t
    /\ (forall (i : nat) (e : event),
          evs !! i = Some e ->
          (S i < length evs)%nat ->
          is_last e = false /\ 0 < ev_after e).
Proof.
  intros Hc Hb Hh. unfold new_counter in Hc.
  pose proof (gets_nonneg t) as Hg0.
  destruct (sim_held w t 0 0) as (_ & Hok & Hcnt); try lia; try done.
  change (1 + 0 - 0) with 1 in *.
  exists (fst (sim w 1 t)), (<[ref := VUInt (snd (sim w 1 t))]> m).
  split; [by apply exec_sim |].
  split; [apply sim_length |].
  intros i e He Hi.
  assert (Hne : t <> []).
  { intros ->. simpl in He. done. }
  specialize (Hcnt Hne).
  assert (Hnonneg : 0 <= ev_after e).
  { rewrite (sim_after w t 1 i e) by (done || lia).
    unfold to_u_int. apply Z.mod_pos_bound. lia. }
  destruct (last (fst (sim w 1 t))) as [el |] eqn:Hl.
  - pose proof (sim_last w t 1 el Hl) as Hel.
    apply last_Some in Hl as [l Hl].
    rewrite Hl in He, Hi, Hcnt, Hok.
    rewrite count_if_app in Hcnt. simpl in Hcnt.
    unfold at_zero at 2 in Hcnt. rewrite Hel in Hcnt.
    assert (Hl0 : count_if at_zero l = 0%nat).
    { destruct (snd (sim w 1 t) =? 0); lia. }
    rewrite length_app in Hi. simpl in Hi.
    rewrite lookup_app_l in He by lia.
    pose proof (count_if_none at_zero l Hl0) as Hnone.
    rewrite Forall_forall in Hnone.
    assert (Hin : e ∈ l) by (apply list_elem_of_lookup; eauto).
    pose proof (Hnone e Hin) as Hz.
    apply Forall_app in Hok as [Hokl _].
    rewrite Forall_forall in Hokl. destruct (Hokl e Hin) as [Heq _].
    split; [by rewrite Heq |].
    unfold at_zero in Hz. apply Z.eqb_neq in Hz. lia.
  - apply last_None in Hl. rewrite Hl in He. done.
Qed.

Lemma held_trace_no_early_release_witness :
  exists (evs : list event) (m' : gmap Z val),
    exec 32 16 [Get; Cur; Put; Get; Get; Put] sample_mem = Some (evs, m')
    /\ length evs = length [Get; Cur; Put; Get; Get; Put]
    /\ (forall (i : nat) (e : event),
          evs !! i = Some e ->
          (S i < length evs)%nat ->
          is_last e = false /\ 0 < ev_after e).
Proof.
  apply (held_trace_no_early_release 32 16 [Get; Cur; Put; Get; Get; Put]
           sample_mem); [reflexivity | simpl; lia | reflexivity].
Defined.
